(** * Verification of the KV checksum accumulator of tidb-lightning

    Sources: [lightning/verification/checksum.go] and, for the log
    configuration, [lightning/common/log.go].

    The accumulator is a triple of [uint64] fields.  A [uint64] is embedded
    as a [Z] together with its wrap-around modulo [2^64]; a Go [int] (64-bit
    platforms) as a [Z] with two's complement wrap-around; a [[]byte] as a
    possibly-nil list of [Byte.byte]. *)

From Stdlib Require Import ZArith List Lia Bool Permutation.
From Stdlib Require Import Strings.Ascii Strings.Byte Strings.String.
Import ListNotations.

Local Open Scope Z_scope.

(** ** Machine integers of Go *)

Module GoInt.

(** [uint64]: values in [0, 2^64); arithmetic wraps around. *)
Definition modulus : Z := 2 ^ 64.

Definition is_uint64 (z : Z) : Prop := 0 <= z < modulus.

Definition u64_wrap (z : Z) : Z := z mod modulus.

(** [a + b] on [uint64]. *)
Definition u64_add (a b : Z) : Z := u64_wrap (a + b).

(** [a ^ b] on [uint64]. *)
Definition u64_xor (a b : Z) : Z := Z.lxor a b.

(** [^a] on [uint64]: XOR with the all-ones word. *)
Definition u64_not (a : Z) : Z := Z.lxor a (modulus - 1).

(** [a >> n] on [uint64]. *)
Definition u64_shr (a n : Z) : Z := Z.shiftr a n.

(** [int] is 64 bits wide: values in [-2^63, 2^63). *)
Definition half : Z := 2 ^ 63.

Definition int_wrap (z : Z) : Z := (z + half) mod modulus - half.

(** [a + b] on [int]. *)
Definition int_add (a b : Z) : Z := int_wrap (a + b).

(** The conversion [uint64(i)] of an [int]. *)
Definition uint64_of_int (i : Z) : Z := i mod modulus.

(** The conversion [byte(x)] of a [uint64]: the low eight bits. *)
Definition byte_of_uint64 (x : Z) : Z := x mod 256.

End GoInt.

Import GoInt.

(** ** Byte slices

    A Go slice is either [nil] or a view on a sequence of elements; [len]
    of the nil slice is [0] and [range] over it runs no iteration. *)

Inductive GoBytes : Type :=
| NilBytes : GoBytes
| Bytes (l : list byte) : GoBytes.

Definition elems (s : GoBytes) : list byte :=
  match s with
  | NilBytes => []
  | Bytes l => l
  end.

Definition len (s : GoBytes) : Z := Z.of_nat (List.length (elems s)).

Definition byte_val (b : byte) : Z := Z.of_N (Byte.to_N b).

(** ** The standard library package [hash/crc64]

    [Table] is the array type [[256]uint64]; [MakeTable] fills it bit by bit
    from the reversed polynomial, and [Update] is the table-driven,
    byte-at-a-time loop.  (The library's slicing-by-8 path for long inputs
    computes the same function and is not modelled separately.) *)

Module crc64.

Definition ECMA : Z := 0xC96C5795D7870F42.

Definition Table : Type := list Z.

(** One round of the inner loop of [makeTable]. *)
Definition table_round (poly crc : Z) : Z :=
  if Z.eqb (Z.land crc 1) 1
  then u64_xor (u64_shr crc 1) poly
  else u64_shr crc 1.

(** [for j := 0; j < 8; j++] applied to [crc := uint64(i)]. *)
Definition table_entry (poly : Z) (i : nat) : Z :=
  Nat.iter 8 (table_round poly) (Z.of_nat i).

Definition MakeTable (poly : Z) : Table :=
  List.map (table_entry poly) (List.seq 0 256).

(** [tab[i]], total: an index of type [byte] is always inside the array. *)
Definition index (tab : Table) (i : Z) : Z :=
  List.nth (Z.to_nat i) tab 0.

(** [tab[i]] with the run-time bounds check made explicit. *)
Definition index_checked (tab : Table) (i : Z) : option Z :=
  if Z.ltb i 0 then None else List.nth_error tab (Z.to_nat i).

(** Body of [for _, v := range p]:
    [crc = tab[byte(crc)^v] ^ (crc >> 8)]. *)
Definition step (tab : Table) (crc : Z) (v : byte) : Z :=
  u64_xor (index tab (Z.lxor (byte_of_uint64 crc) (byte_val v)))
          (u64_shr crc 8).

Definition Update (crc : Z) (tab : Table) (p : GoBytes) : Z :=
  let crc := u64_not crc in
  let crc := List.fold_left (step tab) (elems p) crc in
  u64_not crc.

(** The same loop, failing where an array index would be out of range. *)
Definition step_checked (tab : Table) (crc : option Z) (v : byte)
  : option Z :=
  match crc with
  | None => None
  | Some crc =>
      match index_checked tab (Z.lxor (byte_of_uint64 crc) (byte_val v)) with
      | None => None
      | Some e => Some (u64_xor e (u64_shr crc 8))
      end
  end.

Definition Update_checked (crc : Z) (tab : Table) (p : GoBytes)
  : option Z :=
  let crc := u64_not crc in
  match List.fold_left (step_checked tab) (elems p) (Some crc) with
  | None => None
  | Some crc => Some (u64_not crc)
  end.

End crc64.

(** ** Package [verification] *)

(** [kvec.KvPair] of [tidb/util/kvencoder]: a key and a value, both
    [[]byte]. *)
Record KvPair : Type := mkKvPair {
  Key : GoBytes;
  Val : GoBytes
}.

Definition ecmaTable : crc64.Table := crc64.MakeTable crc64.ECMA.

Record KVChecksum : Type := mkKVChecksum {
  bytes : Z;
  kvs : Z;
  checksum : Z
}.

(** A value of the Go struct: every field is a [uint64]. *)
Definition wf (c : KVChecksum) : Prop :=
  is_uint64 (bytes c) /\ is_uint64 (kvs c) /\ is_uint64 (checksum c).

(** [NewKVChecksum]: the fields not named in the literal are zero. *)
Definition NewKVChecksum (checksum : Z) : KVChecksum :=
  {| bytes := 0; kvs := 0; checksum := checksum |}.

Definition MakeKVChecksum (bytes kvs checksum : Z) : KVChecksum :=
  {| bytes := bytes; kvs := kvs; checksum := checksum |}.

(** The local variables of [Update]. *)
Record UpdateLocals : Type := mkLocals {
  l_checksum : Z;
  l_sum : Z;
  l_kvNum : Z;
  l_bytes : Z
}.

Definition locals0 : UpdateLocals :=
  {| l_checksum := 0; l_sum := 0; l_kvNum := 0; l_bytes := 0 |}.

(** Body of [for _, pair := range kvs]. *)
Definition Update_body (st : UpdateLocals) (pair : KvPair) : UpdateLocals :=
  let sum := crc64.Update 0 ecmaTable (Key pair) in
  let sum := crc64.Update sum ecmaTable (Val pair) in
  {| l_checksum := u64_xor (l_checksum st) sum;
     l_sum := sum;
     l_kvNum := int_add (l_kvNum st) 1;
     l_bytes := int_add (l_bytes st) (int_add (len (Key pair)) (len (Val pair))) |}.

Definition set_bytes (c : KVChecksum) (v : Z) : KVChecksum :=
  {| bytes := v; kvs := kvs c; checksum := checksum c |}.

Definition set_kvs (c : KVChecksum) (v : Z) : KVChecksum :=
  {| bytes := bytes c; kvs := v; checksum := checksum c |}.

Definition set_checksum (c : KVChecksum) (v : Z) : KVChecksum :=
  {| bytes := bytes c; kvs := kvs c; checksum := v |}.

(** [func (c *KVChecksum) Update(kvs []kvec.KvPair)]: the receiver after the
    call. *)
Definition Update (c : KVChecksum) (batch : list KvPair) : KVChecksum :=
  let st := List.fold_left Update_body batch locals0 in
  let c := set_bytes c (u64_add (bytes c) (uint64_of_int (l_bytes st))) in
  let c := set_kvs c (u64_add (kvs c) (uint64_of_int (l_kvNum st))) in
  set_checksum c (u64_xor (checksum c) (l_checksum st)).

(** [func (c *KVChecksum) Add(other *KVChecksum)]: the receiver after the
    call ([other] is only read). *)
Definition Add (c other : KVChecksum) : KVChecksum :=
  let c := set_bytes c (u64_add (bytes c) (bytes other)) in
  let c := set_kvs c (u64_add (kvs c) (kvs other)) in
  set_checksum c (u64_xor (checksum c) (checksum other)).

Definition Sum (c : KVChecksum) : Z := checksum c.

Definition SumSize (c : KVChecksum) : Z := bytes c.

Definition SumKVS (c : KVChecksum) : Z := kvs c.

(** [Update] with the run-time checks of the digest loop made explicit:
    [None] stands for a panic. *)
Definition Update_body_checked (st : option UpdateLocals) (pair : KvPair)
  : option UpdateLocals :=
  match st with
  | None => None
  | Some st =>
      match crc64.Update_checked 0 ecmaTable (Key pair) with
      | None => None
      | Some sum =>
          match crc64.Update_checked sum ecmaTable (Val pair) with
          | None => None
          | Some sum =>
              Some {| l_checksum := u64_xor (l_checksum st) sum;
                      l_sum := sum;
                      l_kvNum := int_add (l_kvNum st) 1;
                      l_bytes := int_add (l_bytes st)
                                   (int_add (len (Key pair)) (len (Val pair))) |}
          end
      end
  end.

Definition Update_checked (c : KVChecksum) (batch : list KvPair)
  : option KVChecksum :=
  match List.fold_left Update_body_checked batch (Some locals0) with
  | None => None
  | Some st =>
      let c := set_bytes c (u64_add (bytes c) (uint64_of_int (l_bytes st))) in
      let c := set_kvs c (u64_add (kvs c) (uint64_of_int (l_kvNum st))) in
      Some (set_checksum c (u64_xor (checksum c) (l_checksum st)))
  end.

(** ** Specification-level vocabulary *)

(** The per-pair digest: the CRC-64 of key followed by value. *)
Definition digest (p : KvPair) : Z :=
  crc64.Update 0 ecmaTable (Bytes (elems (Key p) ++ elems (Val p))).

Definition pair_size (p : KvPair) : Z := len (Key p) + len (Val p).

Definition xor_digests (ps : list KvPair) : Z :=
  List.fold_right (fun p acc => Z.lxor (digest p) acc) 0 ps.

Definition total_size (ps : list KvPair) : Z :=
  List.fold_right (fun p acc => pair_size p + acc) 0 ps.

Definition pair_count (ps : list KvPair) : Z := Z.of_nat (List.length ps).

(** The empty accumulator. *)
Definition empty : KVChecksum := NewKVChecksum 0.

(** A sequence of [Update] calls on one receiver, one call per batch. *)
Definition Updates (c : KVChecksum) (batches : list (list KvPair))
  : KVChecksum :=
  List.fold_left Update batches c.

(** The accumulator of a partition: built from the empty one by [Update]-ing
    the partition's batches. *)
Definition acc (batches : list (list KvPair)) : KVChecksum :=
  Updates empty batches.

(** The accumulators reachable from the empty one by [Update] and [Add],
    each with the pairs folded into it so far (directly, or through the
    accumulators merged into it), in the order they came in. *)
Inductive Reachable : KVChecksum -> list KvPair -> Prop :=
| Reach_empty :
    Reachable empty []
| Reach_Update (c : KVChecksum) (h batch : list KvPair) :
    Reachable c h -> Reachable (Update c batch) (h ++ batch)
| Reach_Add (c other : KVChecksum) (h h' : list KvPair) :
    Reachable c h -> Reachable other h' -> Reachable (Add c other) (h ++ h').

(** A slice with the same elements that is not nil. *)
Definition non_nil (s : GoBytes) : GoBytes := Bytes (elems s).

Definition non_nil_pair (p : KvPair) : KvPair :=
  {| Key := non_nil (Key p); Val := non_nil (Val p) |}.

Definition bytes_of_string (s : string) : GoBytes :=
  Bytes (list_byte_of_string s).

(** Sample pairs. *)
Definition kv (k v : string) : KvPair :=
  {| Key := bytes_of_string k; Val := bytes_of_string v |}.

(** A duplicate-free check on integer lists, used on the CRC table. *)
Fixpoint nodupb (l : list Z) : bool :=
  match l with
  | [] => true
  | x :: l' => negb (List.existsb (Z.eqb x) l') && nodupb l'
  end.

(** ** The standard library package [strings], on byte strings

    A Go [string] is a sequence of bytes, as is a [string] here. *)

Module strings.

Definition byte_code (c : ascii) : Z := Z.of_N (N_of_ascii c).

(** ['A' <= c && c <= 'Z']. *)
Definition is_upper (c : ascii) : bool :=
  (65 <=? byte_code c) && (byte_code c <=? 90).

(** [c += 'a' - 'A'] for an upper-case letter. *)
Definition lower_byte (c : ascii) : ascii :=
  if is_upper c then ascii_of_N (N_of_ascii c + 32) else c.

(** No byte of [s] is [>= utf8.RuneSelf] (0x80). *)
Fixpoint isASCII (s : string) : bool :=
  match s with
  | EmptyString => true
  | String c s' => (byte_code c <? 128) && isASCII s'
  end.

Fixpoint hasUpper (s : string) : bool :=
  match s with
  | EmptyString => false
  | String c s' => is_upper c || hasUpper s'
  end.

Fixpoint lowerASCII (s : string) : string :=
  match s with
  | EmptyString => EmptyString
  | String c s' => String (lower_byte c) (lowerASCII s')
  end.

(** [ToLower]: an ASCII-only string is returned as it is when it has no
    upper-case letter and lowered byte by byte otherwise; any other string
    goes through [Map(unicode.ToLower, s)], which is the parameter
    [mapLower]. *)
Definition ToLower (mapLower : string -> string) (s : string) : string :=
  if isASCII s
  then (if hasUpper s then lowerASCII s else s)
  else mapLower s.

(** [Contains(s, substr)]: [substr] occurs in [s] at some byte offset. *)
Fixpoint Contains (s substr : string) : bool :=
  String.prefix substr s
  || match s with
     | EmptyString => false
     | String _ s' => Contains s' substr
     end.

End strings.

(** ** The levels of [github.com/sirupsen/logrus]

    [type Level uint32], with [PanicLevel Level = iota] and the levels that
    follow it. *)

Module logrus.

Definition Level : Type := Z.

Definition PanicLevel : Level := 0.
Definition FatalLevel : Level := 1.
Definition ErrorLevel : Level := 2.
Definition WarnLevel : Level := 3.
Definition InfoLevel : Level := 4.
Definition DebugLevel : Level := 5.

End logrus.

(** ** Package [common]: [lightning/common/log.go] *)

Module common.

Definition defaultLogLevel : logrus.Level := logrus.InfoLevel.
Definition defaultLogMaxDays : Z := 7.
Definition defaultLogMaxSize : Z := 512.

Record LogConfig : Type := mkLogConfig {
  Level : string;
  File : string;
  FileMaxSize : Z;
  FileMaxDays : Z;
  FileMaxBackups : Z
}.

(** [len(s)] of a string. *)
Definition str_len (s : string) : Z := Z.of_nat (String.length s).

Definition set_FileMaxSize (cfg : LogConfig) (v : Z) : LogConfig :=
  {| Level := Level cfg; File := File cfg; FileMaxSize := v;
     FileMaxDays := FileMaxDays cfg; FileMaxBackups := FileMaxBackups cfg |}.

Definition set_FileMaxDays (cfg : LogConfig) (v : Z) : LogConfig :=
  {| Level := Level cfg; File := File cfg; FileMaxSize := FileMaxSize cfg;
     FileMaxDays := v; FileMaxBackups := FileMaxBackups cfg |}.

(** [func (cfg *LogConfig) Adjust()]: the receiver after the call. *)
Definition Adjust (cfg : LogConfig) : LogConfig :=
  if 0 <? str_len (File cfg) then
    let cfg :=
      if FileMaxSize cfg =? 0 then set_FileMaxSize cfg defaultLogMaxSize
      else cfg in
    let cfg :=
      if FileMaxDays cfg =? 0 then set_FileMaxDays cfg defaultLogMaxDays
      else cfg in
    cfg
  else cfg.

(** [func stringToLogLevel(level string) log.Level]; the cases of the
    [switch] are tried in order. *)
Definition stringToLogLevel (mapLower : string -> string) (level : string)
  : logrus.Level :=
  let l := strings.ToLower mapLower level in
  if String.eqb l "fatal" then logrus.FatalLevel
  else if String.eqb l "error" then logrus.ErrorLevel
  else if String.eqb l "warn" || String.eqb l "warning" then logrus.WarnLevel
  else if String.eqb l "debug" then logrus.DebugLevel
  else if String.eqb l "info" then logrus.InfoLevel
  else defaultLogLevel.

Definition isSkippedPackageName (name : string) : bool :=
  strings.Contains name "github.com/sirupsen/logrus"
  || strings.Contains name "github.com/coreos/pkg/capnslog".

(** A program counter of the call stack as [runtime.FuncForPC] resolves it:
    the function's name and its file and line. *)
Record Frame : Type := mkFrame {
  fn_name : string;
  fn_file : string;
  fn_line : Z
}.

(** The values [Fire] stores in [entry.Data]. *)
Inductive Value : Type :=
| VString (s : string)
| VInt (i : Z).

(** [entry.Data], a [map[string]interface{}], by its lookups. *)
Definition Fields : Type := string -> option Value.

Definition fields_set (d : Fields) (k : string) (v : Value) : Fields :=
  fun k' => if String.eqb k' k then Some v else d k'.

(** The loop of [Fire] over [pc[0..cnt)]: the first function that is not
    skipped gives the entry its file and line, and the loop stops there. *)
Fixpoint Fire_loop (Base : string -> string) (pcs : list Frame) (d : Fields)
  : Fields :=
  match pcs with
  | [] => d
  | fu :: rest =>
      if negb (isSkippedPackageName (fn_name fu))
      then fields_set (fields_set d "file" (VString (Base (fn_file fu))))
             "line" (VInt (fn_line fu))
      else Fire_loop Base rest d
  end.

(** [func (hook *contextHook) Fire(entry *log.Entry) error]: [callers] is
    the call stack above the six frames that [runtime.Callers(6, pc)] skips,
    of which [pc], of length 3, receives the first three at most; [Base] is
    [path.Base].  The result is [entry.Data] after the call and the returned
    error, which is always [nil] ([None]). *)
Definition Fire (Base : string -> string) (callers : list Frame) (d : Fields)
  : Fields * option string :=
  let pc := List.firstn 3 callers in
  (Fire_loop Base pc d, None).

(** The fields of [AppLogger] that this file writes. *)
Inductive Hook : Type := contextHook.

Inductive Formatter : Type :=
| TextFormatter
| SimpleTextFormater.

Record lumberjack_Logger : Type := mkLumberjack {
  Filename : string;
  MaxSize : Z;
  MaxAge : Z;
  MaxBackups : Z;
  LocalTime : bool
}.

Inductive Writer : Type :=
| Stderr
| Lumberjack (l : lumberjack_Logger).

Record Logger : Type := mkLogger {
  Out : Writer;
  Hooks : list Hook;
  LoggerFormatter : Formatter;
  LoggerLevel : logrus.Level
}.

(** The state [InitLogger] acts on: [AppLogger] and the level last given to
    [logutil.InitLogger]. *)
Record World : Type := mkWorld {
  AppLogger : Logger;
  tidbLevel : option string
}.

Definition with_logger (w : World) (l : Logger) : World :=
  {| AppLogger := l; tidbLevel := tidbLevel w |}.

Definition SetLevel (level : logrus.Level) (w : World) : World :=
  with_logger w
    {| Out := Out (AppLogger w); Hooks := Hooks (AppLogger w);
       LoggerFormatter := LoggerFormatter (AppLogger w);
       LoggerLevel := level |}.

Definition GetLevel (w : World) : logrus.Level := LoggerLevel (AppLogger w).

(** [func InitLogger(cfg *LogConfig, tidbLoglevel string) error]:
    [IsDirExists] is the file-system test of that name, and [mapLower] the
    parameter of [strings.ToLower].  The result is the state after the call
    and the error returned ([None] for [nil]). *)
Definition InitLogger (mapLower : string -> string)
  (IsDirExists : string -> bool) (cfg : LogConfig) (tidbLoglevel : string)
  (w : World) : World * option string :=
  let w := SetLevel (stringToLogLevel mapLower (Level cfg)) w in
  let w := with_logger w
             {| Out := Out (AppLogger w);
                Hooks := Hooks (AppLogger w) ++ [contextHook];
                LoggerFormatter := LoggerFormatter (AppLogger w);
                LoggerLevel := LoggerLevel (AppLogger w) |} in
  let w := with_logger w
             {| Out := Out (AppLogger w);
                Hooks := Hooks (AppLogger w);
                LoggerFormatter := SimpleTextFormater;
                LoggerLevel := LoggerLevel (AppLogger w) |} in
  let w := {| AppLogger := AppLogger w; tidbLevel := Some tidbLoglevel |} in
  if 0 <? str_len (File cfg) then
    if IsDirExists (File cfg) then
      (w, Some ("can't use directory as log file name : " ++ File cfg)%string)
    else
      let output :=
        {| Filename := File cfg;
           MaxAge := FileMaxDays cfg;
           MaxSize := FileMaxSize cfg;
           MaxBackups := FileMaxBackups cfg;
           LocalTime := true |} in
      (with_logger w
         {| Out := Lumberjack output;
            Hooks := Hooks (AppLogger w);
            LoggerFormatter := LoggerFormatter (AppLogger w);
            LoggerLevel := LoggerLevel (AppLogger w) |},
       None)
  else (w, None).

End common.

(** ** Arithmetic of the machine integers *)

Section GoIntFacts.

Lemma modulus_pos : 0 < modulus.
Proof. reflexivity. Qed.

Lemma u64_wrap_range (z : Z) : is_uint64 (u64_wrap z).
Proof. unfold is_uint64, u64_wrap. apply Z.mod_pos_bound, modulus_pos. Qed.

Lemma u64_wrap_small (z : Z) : is_uint64 z -> u64_wrap z = z.
Proof. unfold is_uint64, u64_wrap. intros H. now apply Z.mod_small. Qed.

Lemma u64_add_comm (a b : Z) : u64_add a b = u64_add b a.
Proof. unfold u64_add. now rewrite Z.add_comm. Qed.

Lemma u64_add_wrap_l (a b : Z) : u64_add (u64_wrap a) b = u64_add a b.
Proof. unfold u64_add, u64_wrap. apply Z.add_mod_idemp_l. discriminate. Qed.

Lemma u64_add_wrap_r (a b : Z) : u64_add a (u64_wrap b) = u64_add a b.
Proof. unfold u64_add, u64_wrap. apply Z.add_mod_idemp_r. discriminate. Qed.

Lemma u64_add_add_l (a b c : Z) : u64_add (u64_add a b) c = u64_add a (b + c).
Proof.
  unfold u64_add at 2. rewrite u64_add_wrap_l.
  unfold u64_add. now rewrite Z.add_assoc.
Qed.

Lemma u64_add_add_r (a b c : Z) : u64_add a (u64_add b c) = u64_add a (b + c).
Proof. unfold u64_add at 2. apply u64_add_wrap_r. Qed.

Lemma u64_add_assoc (a b c : Z) :
  u64_add (u64_add a b) c = u64_add a (u64_add b c).
Proof. now rewrite u64_add_add_l, u64_add_add_r. Qed.

Lemma u64_add_0_l (a : Z) : u64_add 0 a = u64_wrap a.
Proof. reflexivity. Qed.

Lemma u64_add_0_r (a : Z) : u64_add a 0 = u64_wrap a.
Proof. unfold u64_add. now rewrite Z.add_0_r. Qed.

Lemma u64_not_involutive (a : Z) : u64_not (u64_not a) = a.
Proof.
  unfold u64_not.
  now rewrite Z.lxor_assoc, Z.lxor_nilpotent, Z.lxor_0_r.
Qed.

(** Wrapping an [int] and converting it to [uint64] keeps the value modulo
    [2^64]. *)
Lemma int_wrap_add_mod (x y : Z) :
  (int_wrap x + y) mod modulus = (x + y) mod modulus.
Proof.
  unfold int_wrap.
  replace ((x + half) mod modulus - half + y)
    with ((x + half) mod modulus + (y - half)) by ring.
  rewrite Z.add_mod_idemp_l by discriminate.
  f_equal. ring.
Qed.

Lemma uint64_of_int_wrap (z : Z) : uint64_of_int (int_wrap z) = u64_wrap z.
Proof.
  unfold uint64_of_int, u64_wrap.
  rewrite <- (Z.add_0_r (int_wrap z)), int_wrap_add_mod.
  now rewrite Z.add_0_r.
Qed.

Lemma int_wrap_small (z : Z) : - half <= z < half -> int_wrap z = z.
Proof.
  intros H. unfold int_wrap.
  rewrite Z.mod_small; [ring|].
  unfold half, modulus in *. lia.
Qed.

(** XOR stays inside the word. *)
Lemma lxor_lt_pow2 (n a b : Z) :
  0 <= n -> 0 <= a < 2 ^ n -> 0 <= b < 2 ^ n -> 0 <= Z.lxor a b < 2 ^ n.
Proof.
  intros Hn Ha Hb.
  assert (E : Z.lxor a b = Z.lxor a b mod 2 ^ n).
  { apply Z.bits_inj'. intros i Hi.
    rewrite Z.testbit_mod_pow2 by assumption.
    destruct (Z.ltb_spec i n) as [Hlt | Hge]; [reflexivity|].
    rewrite Z.lxor_spec.
    rewrite <- (Z.mod_small a (2 ^ n)) by assumption.
    rewrite <- (Z.mod_small b (2 ^ n)) by assumption.
    now rewrite !Z.mod_pow2_bits_high by lia. }
  rewrite E. apply Z.mod_pos_bound. now apply Z.pow_pos_nonneg.
Qed.

Lemma u64_xor_range (a b : Z) :
  is_uint64 a -> is_uint64 b -> is_uint64 (u64_xor a b).
Proof. unfold is_uint64, u64_xor, modulus. now apply lxor_lt_pow2. Qed.

End GoIntFacts.

(** ** Facts about [hash/crc64] *)

Section Crc64Facts.

Variable tab : crc64.Table.

(** Running no iteration returns the seed: the two complements cancel. *)
Lemma crc_Update_no_bytes (crc : Z) (p : GoBytes) :
  elems p = [] -> crc64.Update crc tab p = crc.
Proof.
  intros E. unfold crc64.Update. rewrite E. simpl.
  apply u64_not_involutive.
Qed.

(** Only the elements of the slice matter, not whether it is nil. *)
Lemma crc_Update_elems (crc : Z) (p q : GoBytes) :
  elems p = elems q -> crc64.Update crc tab p = crc64.Update crc tab q.
Proof. intros E. unfold crc64.Update. now rewrite E. Qed.

(** The rolling property: feeding [p] and then [q] into the same state is
    feeding their concatenation. *)
Lemma crc_Update_rolling (crc : Z) (p q : GoBytes) :
  crc64.Update (crc64.Update crc tab p) tab q
  = crc64.Update crc tab (Bytes (elems p ++ elems q)).
Proof.
  unfold crc64.Update. simpl.
  now rewrite u64_not_involutive, fold_left_app.
Qed.

Lemma byte_val_range (v : byte) : 0 <= byte_val v < 256.
Proof.
  unfold byte_val. pose proof (Byte.to_N_bounded v). lia.
Qed.

Lemma crc_index_in_range (crc : Z) (v : byte) :
  0 <= Z.lxor (byte_of_uint64 crc) (byte_val v) < 256.
Proof.
  change 256 with (2 ^ 8). apply lxor_lt_pow2; [lia | | ].
  - unfold byte_of_uint64. apply Z.mod_pos_bound. reflexivity.
  - apply byte_val_range.
Qed.

Hypothesis tab_length : List.length tab = 256%nat.

Lemma crc_index_checked_ok (crc : Z) (v : byte) :
  crc64.index_checked tab (Z.lxor (byte_of_uint64 crc) (byte_val v))
  = Some (crc64.index tab (Z.lxor (byte_of_uint64 crc) (byte_val v))).
Proof.
  pose proof (crc_index_in_range crc v) as [Hlo Hhi].
  unfold crc64.index_checked, crc64.index.
  destruct (Z.ltb_spec (Z.lxor (byte_of_uint64 crc) (byte_val v)) 0);
    [lia|].
  apply nth_error_nth'. rewrite tab_length. lia.
Qed.

Lemma crc_step_checked_ok (crc : Z) (v : byte) :
  crc64.step_checked tab (Some crc) v = Some (crc64.step tab crc v).
Proof.
  unfold crc64.step_checked, crc64.step.
  now rewrite crc_index_checked_ok.
Qed.

Lemma crc_fold_checked_ok (l : list byte) (crc : Z) :
  List.fold_left (crc64.step_checked tab) l (Some crc)
  = Some (List.fold_left (crc64.step tab) l crc).
Proof.
  revert crc. induction l as [| v l IH]; intros crc; cbn [List.fold_left].
  - reflexivity.
  - rewrite crc_step_checked_ok. apply IH.
Qed.

Lemma crc_Update_checked_ok (crc : Z) (p : GoBytes) :
  crc64.Update_checked crc tab p = Some (crc64.Update crc tab p).
Proof.
  unfold crc64.Update_checked, crc64.Update.
  now rewrite crc_fold_checked_ok.
Qed.

End Crc64Facts.

Lemma ecmaTable_length : List.length ecmaTable = 256%nat.
Proof. reflexivity. Qed.

(** The model reproduces the published check value of CRC-64/XZ, the
    parameter set of Go's [crc64.ECMA]. *)
Example crc64_check_value :
  crc64.Update 0 ecmaTable (bytes_of_string "123456789") = 0x995DC9BBDF1939FA.
Proof. vm_compute. reflexivity. Qed.

(** ** The loop of [Update] in closed form *)

Section UpdateLoop.

Lemma pair_digest_rolling (p : KvPair) :
  crc64.Update (crc64.Update 0 ecmaTable (Key p)) ecmaTable (Val p)
  = digest p.
Proof. unfold digest. apply crc_Update_rolling. Qed.

Lemma total_size_app (l1 l2 : list KvPair) :
  total_size (l1 ++ l2) = total_size l1 + total_size l2.
Proof.
  induction l1 as [| p l1 IH]; simpl; [reflexivity|].
  rewrite IH. ring.
Qed.

Lemma pair_count_app (l1 l2 : list KvPair) :
  pair_count (l1 ++ l2) = pair_count l1 + pair_count l2.
Proof. unfold pair_count. rewrite length_app. lia. Qed.

Lemma xor_digests_app (l1 l2 : list KvPair) :
  xor_digests (l1 ++ l2) = Z.lxor (xor_digests l1) (xor_digests l2).
Proof.
  induction l1 as [| p l1 IH]; simpl.
  - reflexivity.
  - now rewrite IH, Z.lxor_assoc.
Qed.

Lemma pair_count_cons (p : KvPair) (l : list KvPair) :
  pair_count (p :: l) = 1 + pair_count l.
Proof. unfold pair_count. simpl List.length. lia. Qed.

(** What the loop leaves in the locals, seen through the conversions that
    follow it. *)
Lemma Update_loop_spec (batch : list KvPair) (st : UpdateLocals) :
  let st' := List.fold_left Update_body batch st in
  l_checksum st' = Z.lxor (l_checksum st) (xor_digests batch)
  /\ uint64_of_int (l_bytes st') = u64_wrap (l_bytes st + total_size batch)
  /\ uint64_of_int (l_kvNum st') = u64_wrap (l_kvNum st + pair_count batch).
Proof.
  revert st. induction batch as [| p batch IH]; intros st; simpl.
  - rewrite Z.lxor_0_r, !Z.add_0_r. repeat split.
  - destruct (IH (Update_body st p)) as (Hc & Hb & Hk).
    rewrite Hc, Hb, Hk. clear Hc Hb Hk IH.
    unfold Update_body; simpl. rewrite pair_digest_rolling.
    repeat split.
    + unfold u64_xor. now rewrite Z.lxor_assoc.
    + unfold int_add, u64_wrap, pair_size.
      rewrite int_wrap_add_mod.
      replace (l_bytes st + int_wrap (len (Key p) + len (Val p))
               + total_size batch)
        with (int_wrap (len (Key p) + len (Val p))
              + (l_bytes st + total_size batch)) by ring.
      rewrite int_wrap_add_mod.
      f_equal. ring.
    + rewrite pair_count_cons. unfold int_add, u64_wrap.
      rewrite int_wrap_add_mod. f_equal. ring.
Qed.

(** The receiver after [Update], in closed form. *)
Lemma Update_closed (c : KVChecksum) (batch : list KvPair) :
  Update c batch
  = {| bytes := u64_add (bytes c) (total_size batch);
       kvs := u64_add (kvs c) (pair_count batch);
       checksum := Z.lxor (checksum c) (xor_digests batch) |}.
Proof.
  unfold Update.
  destruct (Update_loop_spec batch locals0) as (Hc & Hb & Hk).
  simpl in Hc, Hb, Hk.
  unfold set_checksum, set_kvs, set_bytes, u64_xor; simpl.
  rewrite Hc, Hb, Hk, !u64_add_wrap_r.
  reflexivity.
Qed.

Lemma Add_closed (c other : KVChecksum) :
  Add c other
  = {| bytes := u64_add (bytes c) (bytes other);
       kvs := u64_add (kvs c) (kvs other);
       checksum := Z.lxor (checksum c) (checksum other) |}.
Proof. reflexivity. Qed.

End UpdateLoop.

(** ** Algebra of [Update] and [Add] *)

Section Algebra.

Lemma total_size_perm (l l' : list KvPair) :
  Permutation l l' -> total_size l = total_size l'.
Proof.
  induction 1 as [| p l l' _ IH | p q l | l l' l'' _ IH1 _ IH2]; simpl.
  - reflexivity.
  - now rewrite IH.
  - ring.
  - now rewrite IH1.
Qed.

Lemma pair_count_perm (l l' : list KvPair) :
  Permutation l l' -> pair_count l = pair_count l'.
Proof.
  intros H. unfold pair_count. now rewrite (Permutation_length H).
Qed.

Lemma xor_digests_cons (p : KvPair) (l : list KvPair) :
  xor_digests (p :: l) = Z.lxor (digest p) (xor_digests l).
Proof. reflexivity. Qed.

Lemma xor_digests_perm (l l' : list KvPair) :
  Permutation l l' -> xor_digests l = xor_digests l'.
Proof.
  induction 1 as [| p l l' _ IH | p q l | l l' l'' _ IH1 _ IH2].
  - reflexivity.
  - now rewrite !xor_digests_cons, IH.
  - rewrite !xor_digests_cons, <- !Z.lxor_assoc.
    now rewrite (Z.lxor_comm (digest p)).
  - now rewrite IH1.
Qed.

Lemma Update_perm (c : KVChecksum) (b b' : list KvPair) :
  Permutation b b' -> Update c b = Update c b'.
Proof.
  intros H. rewrite !Update_closed.
  now rewrite (total_size_perm _ _ H), (pair_count_perm _ _ H),
    (xor_digests_perm _ _ H).
Qed.

(** Two calls in a row are one call on the concatenated batch. *)
Lemma Update_Update (c : KVChecksum) (b1 b2 : list KvPair) :
  Update (Update c b1) b2 = Update c (b1 ++ b2).
Proof.
  rewrite !Update_closed; simpl.
  rewrite total_size_app, pair_count_app, xor_digests_app.
  now rewrite !u64_add_add_l, Z.lxor_assoc.
Qed.

Lemma Update_nil_batch (c : KVChecksum) : wf c -> Update c [] = c.
Proof.
  intros (Hb & Hk & _). rewrite Update_closed. destruct c as [b k x].
  simpl in *. rewrite !u64_add_0_r, Z.lxor_0_r.
  now rewrite !u64_wrap_small.
Qed.

Lemma Updates_concat (batches : list (list KvPair)) (c : KVChecksum) :
  wf c -> Updates c batches = Update c (List.concat batches).
Proof.
  intros Hc. unfold Updates.
  assert (G : forall bs b, List.fold_left Update bs (Update c b)
                           = Update c (b ++ List.concat bs)).
  { induction bs as [| b' bs IH]; intros b; simpl.
    - now rewrite app_nil_r.
    - now rewrite Update_Update, IH, app_assoc. }
  rewrite <- (Update_nil_batch c Hc) at 1. apply G.
Qed.

Lemma wf_empty : wf empty.
Proof. repeat split; simpl; unfold modulus; lia. Qed.

Lemma acc_closed (batches : list (list KvPair)) :
  acc batches = Update empty (List.concat batches).
Proof. apply Updates_concat, wf_empty. Qed.

Lemma Add_comm (a b : KVChecksum) : Add a b = Add b a.
Proof.
  rewrite !Add_closed.
  now rewrite (u64_add_comm (bytes a)), (u64_add_comm (kvs a)),
    (Z.lxor_comm (checksum a)).
Qed.

Lemma Add_assoc (a b c : KVChecksum) : Add (Add a b) c = Add a (Add b c).
Proof.
  rewrite !Add_closed; simpl.
  now rewrite !u64_add_assoc, Z.lxor_assoc.
Qed.

(** Merging in the accumulator of a batch is [Update]-ing that batch. *)
Lemma Add_Update_empty (c : KVChecksum) (b : list KvPair) :
  Add c (Update empty b) = Update c b.
Proof.
  rewrite Add_closed, !Update_closed; simpl.
  now rewrite !u64_add_0_l, !u64_add_wrap_r.
Qed.

Lemma Add_acc (B1 B2 : list (list KvPair)) :
  Add (acc B1) (acc B2) = acc (B1 ++ B2).
Proof.
  rewrite !acc_closed, Add_Update_empty, Update_Update.
  now rewrite concat_app.
Qed.

Lemma acc_perm (B B' : list (list KvPair)) :
  Permutation (List.concat B) (List.concat B') -> acc B = acc B'.
Proof. intros H. rewrite !acc_closed. now apply Update_perm. Qed.

Lemma concat_perm {A : Type} (B B' : list (list A)) :
  Permutation B B' -> Permutation (List.concat B) (List.concat B').
Proof.
  induction 1 as [| b B B' _ IH | b b' B | B B' B'' _ IH1 _ IH2]; simpl.
  - constructor.
  - now apply Permutation_app_head.
  - rewrite !app_assoc. apply Permutation_app_tail, Permutation_app_comm.
  - now transitivity (List.concat B').
Qed.

Lemma Reachable_closed (c : KVChecksum) (h : list KvPair) :
  Reachable c h -> c = Update empty h.
Proof.
  induction 1 as [| c h batch _ IH | c other h h' _ IH _ IH'].
  - symmetry. apply Update_nil_batch, wf_empty.
  - subst c. apply Update_Update.
  - subst c other. now rewrite Add_Update_empty, Update_Update.
Qed.

End Algebra.

(** ** The fields stay [uint64] values *)

Section Ranges.

Lemma u64_not_range (a : Z) : is_uint64 a -> is_uint64 (u64_not a).
Proof.
  intros H. unfold u64_not. apply u64_xor_range; [exact H |].
  unfold is_uint64, modulus. lia.
Qed.

Lemma u64_shr_range (a n : Z) : 0 <= n -> is_uint64 a -> is_uint64 (u64_shr a n).
Proof.
  unfold is_uint64, u64_shr. intros Hn [Hlo Hhi].
  rewrite Z.shiftr_div_pow2 by assumption.
  assert (Hp : 0 < 2 ^ n) by now apply Z.pow_pos_nonneg.
  split.
  - now apply Z.div_pos.
  - apply Z.le_lt_trans with a; [| exact Hhi].
    apply Z.div_le_upper_bound; [exact Hp |]. nia.
Qed.

Lemma ecmaTable_entries :
  List.Forall is_uint64 ecmaTable.
Proof.
  apply Forall_forall. intros e He.
  assert (C : List.forallb (fun z => (0 <=? z) && (z <? modulus)) ecmaTable
              = true) by (vm_compute; reflexivity).
  rewrite forallb_forall in C. specialize (C e He).
  apply andb_true_iff in C. destruct C as [C1 C2].
  unfold is_uint64. split; [now apply Z.leb_le | now apply Z.ltb_lt].
Qed.

Lemma ecmaTable_index_range (i : Z) : is_uint64 (crc64.index ecmaTable i).
Proof.
  unfold crc64.index.
  destruct (Nat.lt_ge_cases (Z.to_nat i) (List.length ecmaTable)) as [Hlt | Hge].
  - pose proof ecmaTable_entries as F. rewrite Forall_forall in F.
    apply F. now apply nth_In.
  - rewrite nth_overflow by assumption. unfold is_uint64, modulus. lia.
Qed.

Lemma crc_step_range (crc : Z) (v : byte) :
  is_uint64 crc -> is_uint64 (crc64.step ecmaTable crc v).
Proof.
  intros H. unfold crc64.step. apply u64_xor_range.
  - apply ecmaTable_index_range.
  - apply u64_shr_range; [lia | exact H].
Qed.

Lemma crc_Update_range (crc : Z) (p : GoBytes) :
  is_uint64 crc -> is_uint64 (crc64.Update crc ecmaTable p).
Proof.
  intros H. unfold crc64.Update. apply u64_not_range.
  apply u64_not_range in H. revert H.
  generalize (u64_not crc). induction (elems p) as [| v l IH]; intros z Hz.
  - exact Hz.
  - cbn [List.fold_left]. apply IH. now apply crc_step_range.
Qed.

Lemma digest_range (p : KvPair) : is_uint64 (digest p).
Proof.
  unfold digest. apply crc_Update_range. unfold is_uint64, modulus. lia.
Qed.

Lemma xor_digests_range (ps : list KvPair) : is_uint64 (xor_digests ps).
Proof.
  induction ps as [| p ps IH].
  - unfold is_uint64, modulus. simpl. lia.
  - rewrite xor_digests_cons. apply u64_xor_range; [apply digest_range | exact IH].
Qed.

Lemma Update_wf (c : KVChecksum) (batch : list KvPair) :
  wf c -> wf (Update c batch).
Proof.
  intros (_ & _ & Hx). rewrite Update_closed. repeat split; simpl.
  - apply Z.mod_pos_bound, modulus_pos.
  - apply Z.mod_pos_bound, modulus_pos.
  - apply Z.mod_pos_bound, modulus_pos.
  - apply Z.mod_pos_bound, modulus_pos.
  - apply (u64_xor_range _ _ Hx (xor_digests_range batch)).
  - apply (u64_xor_range _ _ Hx (xor_digests_range batch)).
Qed.

Lemma Add_wf (c other : KVChecksum) : wf c -> wf other -> wf (Add c other).
Proof.
  intros (_ & _ & Hx) (_ & _ & Hy). rewrite Add_closed. repeat split; simpl.
  - apply Z.mod_pos_bound, modulus_pos.
  - apply Z.mod_pos_bound, modulus_pos.
  - apply Z.mod_pos_bound, modulus_pos.
  - apply Z.mod_pos_bound, modulus_pos.
  - apply (u64_xor_range _ _ Hx Hy).
  - apply (u64_xor_range _ _ Hx Hy).
Qed.

Lemma Reachable_wf (c : KVChecksum) (h : list KvPair) :
  Reachable c h -> wf c.
Proof.
  induction 1 as [| c h batch _ IH | c other h h' _ IH _ IH'].
  - apply wf_empty.
  - now apply Update_wf.
  - now apply Add_wf.
Qed.

End Ranges.

(** ** The operations, one by one *)

(** C2. [Update] adds to [bytes] the sum over the batch of
    [len(key) + len(value)], adds to [kvs] the number of pairs of the batch,
    and XORs into [checksum] the XOR of the per-pair digests of the batch;
    the result is exactly the record built from these three values, so
    nothing else changes.  The additions are those of [uint64]. *)
Theorem Update_effect (c : KVChecksum) (batch : list KvPair) :
  Update c batch
  = {| bytes := u64_add (bytes c) (total_size batch);
       kvs := u64_add (kvs c) (pair_count batch);
       checksum := u64_xor (checksum c) (xor_digests batch) |}.
Proof. apply Update_closed. Qed.

(** C4. [Add] sets [bytes] to [c.bytes + other.bytes], [kvs] to
    [c.kvs + other.kvs] and [checksum] to [c.checksum ^ other.checksum]; and
    merging [(10, 2, X)] with [(5, 1, Y)] and then with the empty [(0, 0, 0)]
    gives [(15, 3, X ^ Y)]. *)
Theorem Add_effect :
  (forall c other : KVChecksum,
      bytes (Add c other) = u64_add (bytes c) (bytes other)
      /\ kvs (Add c other) = u64_add (kvs c) (kvs other)
      /\ checksum (Add c other) = u64_xor (checksum c) (checksum other))
  /\ (forall X Y : Z,
         Add (Add (MakeKVChecksum 10 2 X) (MakeKVChecksum 5 1 Y))
             (MakeKVChecksum 0 0 0)
         = MakeKVChecksum 15 3 (u64_xor X Y)).
Proof.
  split.
  - intros c other. rewrite Add_closed. repeat split.
  - intros X Y. rewrite !Add_closed. unfold MakeKVChecksum, u64_xor; simpl.
    now rewrite Z.lxor_0_r.
Qed.

(** C5. The digest folded in for a pair is [crc64.Update] from seed [0] over
    the key and then, from the state so reached, over the value, and that is
    the CRC-64-ECMA of key followed by value; [Update] on the single pair
    [("k1", "v1")] from the empty accumulator leaves [Sum()] equal to the
    CRC-64-ECMA of ["k1v1"], which is [0x69A83C7F55F85D21], with
    [SumSize() = 4] and [SumKVS() = 1]. *)
Theorem pair_digest_is_rolling_crc64 :
  (forall p : KvPair,
      crc64.Update (crc64.Update 0 ecmaTable (Key p)) ecmaTable (Val p)
      = crc64.Update 0 ecmaTable (Bytes (elems (Key p) ++ elems (Val p))))
  /\ (forall (c : KVChecksum) (p : KvPair),
         checksum (Update c [p])
         = u64_xor (checksum c)
             (crc64.Update (crc64.Update 0 ecmaTable (Key p))
                ecmaTable (Val p)))
  /\ (let c := Update empty [kv "k1" "v1"] in
      Sum c = crc64.Update 0 ecmaTable (bytes_of_string "k1v1")
      /\ Sum c = 0x69A83C7F55F85D21
      /\ SumSize c = 4
      /\ SumKVS c = 1).
Proof.
  split; [| split].
  - intros p. apply crc_Update_rolling.
  - intros c p. rewrite Update_closed, pair_digest_rolling.
    simpl. unfold u64_xor. now rewrite Z.lxor_0_r.
  - vm_compute. repeat split.
Qed.

(** C8. The empty accumulator has [SumSize() = 0], [SumKVS() = 0] and
    [Sum() = 0], and merging an accumulator with it, on either side, leaves
    that accumulator's triple unchanged. *)
Theorem empty_is_identity (c : KVChecksum) :
  wf c ->
  SumSize empty = 0 /\ SumKVS empty = 0 /\ Sum empty = 0
  /\ Add c empty = c /\ Add empty c = c.
Proof.
  intros (Hb & Hk & _). repeat split.
  - rewrite Add_closed. destruct c as [b k x]; simpl in *.
    now rewrite !u64_add_0_r, !u64_wrap_small, Z.lxor_0_r.
  - rewrite Add_closed. destruct c as [b k x]; simpl in *.
    now rewrite !u64_add_0_l, !u64_wrap_small.
Qed.

Lemma empty_is_identity_witness :
  wf (MakeKVChecksum 10 2 77)
  /\ Add (MakeKVChecksum 10 2 77) empty = MakeKVChecksum 10 2 77.
Proof.
  assert (H : wf (MakeKVChecksum 10 2 77)).
  { unfold wf, is_uint64, modulus; simpl; lia. }
  split; [exact H |].
  apply (empty_is_identity (MakeKVChecksum 10 2 77) H).
Defined.

(** C10. For every [c], [NewKVChecksum(c)] has [SumSize() = 0],
    [SumKVS() = 0] and [Sum() = c], so for [c <> 0] it is not the all-zero
    accumulator; the accessors of [MakeKVChecksum(b, k, x)] return [b], [k]
    and [x]. *)
Theorem constructors_and_accessors :
  (forall c : Z,
      SumSize (NewKVChecksum c) = 0
      /\ SumKVS (NewKVChecksum c) = 0
      /\ Sum (NewKVChecksum c) = c)
  /\ (forall c : Z, c <> 0 -> NewKVChecksum c <> MakeKVChecksum 0 0 0)
  /\ (forall b k x : Z,
         SumSize (MakeKVChecksum b k x) = b
         /\ SumKVS (MakeKVChecksum b k x) = k
         /\ Sum (MakeKVChecksum b k x) = x).
Proof.
  split; [| split].
  - intros c. repeat split.
  - intros c Hc E. apply Hc. now injection E.
  - intros b k x. repeat split.
Qed.

Lemma constructors_and_accessors_witness :
  1 <> 0
  /\ Sum (NewKVChecksum 1) = 1
  /\ NewKVChecksum 1 <> MakeKVChecksum 0 0 0.
Proof.
  assert (H : 1 <> 0) by discriminate.
  destruct constructors_and_accessors as (Hnew & Hne & _).
  split; [exact H |]. split; [apply (Hnew 1) | exact (Hne 1 H)].
Defined.

(** ** Order, batching and merging *)

(** C3. The state after a sequence of [Update] calls depends only on the
    multiset of the pairs folded in: two sequences of batches whose pairs are
    the same up to order leave the same accumulator; in particular
    [Update([a,b])] then [Update([c])] is [Update([c,b,a])]. *)
Theorem Update_order_and_batching_insensitive
  (c : KVChecksum) (Bs Bs' : list (list KvPair)) :
  wf c ->
  Permutation (List.concat Bs) (List.concat Bs') ->
  Updates c Bs = Updates c Bs'
  /\ (forall a b d : KvPair,
         Update (Update c [a; b]) [d] = Update c [d; b; a]).
Proof.
  intros Hc H. split.
  - rewrite !Updates_concat by assumption. now apply Update_perm.
  - intros a b d. rewrite Update_Update. apply Update_perm. simpl.
    transitivity [a; d; b].
    + apply perm_skip, perm_swap.
    + transitivity [d; a; b]; [apply perm_swap | apply perm_skip, perm_swap].
Qed.

Lemma Update_order_and_batching_insensitive_witness :
  wf empty
  /\ Permutation
       (List.concat [[kv "a" "1"; kv "b" "2"]; [kv "c" "3"]])
       (List.concat [[kv "b" "2"]; []; [kv "a" "1"; kv "c" "3"]])
  /\ Updates empty [[kv "a" "1"; kv "b" "2"]; [kv "c" "3"]]
     = Updates empty [[kv "b" "2"]; []; [kv "a" "1"; kv "c" "3"]].
Proof.
  assert (H : Permutation
                (List.concat [[kv "a" "1"; kv "b" "2"]; [kv "c" "3"]])
                (List.concat [[kv "b" "2"]; []; [kv "a" "1"; kv "c" "3"]])).
  { simpl. apply perm_swap. }
  split; [exact wf_empty |]. split; [exact H |].
  apply (Update_order_and_batching_insensitive empty
           [[kv "a" "1"; kv "b" "2"]; [kv "c" "3"]]
           [[kv "b" "2"]; []; [kv "a" "1"; kv "c" "3"]] wf_empty H).
Defined.

(** C1. For accumulators built by [Update] over three partitions, merging
    is associative and commutative, and both groupings give the accumulator
    built by [Update]-ing the batches of the three partitions in any order
    (every interleaving of the three sequences is such an order). *)
Theorem Add_assoc_comm_sequential (B1 B2 B3 L : list (list KvPair)) :
  Permutation L (B1 ++ B2 ++ B3) ->
  Add (Add (acc B1) (acc B2)) (acc B3) = Add (acc B1) (Add (acc B2) (acc B3))
  /\ Add (acc B1) (acc B2) = Add (acc B2) (acc B1)
  /\ Add (Add (acc B1) (acc B2)) (acc B3) = Add (acc B3) (Add (acc B2) (acc B1))
  /\ Add (Add (acc B1) (acc B2)) (acc B3) = acc L.
Proof.
  intros H. repeat split.
  - apply Add_assoc.
  - apply Add_comm.
  - now rewrite (Add_comm (acc B1)), (Add_comm _ (acc B3)).
  - rewrite !Add_acc, <- app_assoc. symmetry. now apply acc_perm, concat_perm.
Qed.

Lemma Add_assoc_comm_sequential_witness :
  Permutation
    [[kv "c" "3"]; [kv "a" "1"; kv "b" "2"]; [kv "d" "4"]; []]
    ([[kv "a" "1"; kv "b" "2"]] ++ [[kv "c" "3"]] ++ [[kv "d" "4"]; []])
  /\ Add (Add (acc [[kv "a" "1"; kv "b" "2"]]) (acc [[kv "c" "3"]]))
         (acc [[kv "d" "4"]; []])
     = acc [[kv "c" "3"]; [kv "a" "1"; kv "b" "2"]; [kv "d" "4"]; []].
Proof.
  assert (H : Permutation
                [[kv "c" "3"]; [kv "a" "1"; kv "b" "2"]; [kv "d" "4"]; []]
                ([[kv "a" "1"; kv "b" "2"]] ++ [[kv "c" "3"]]
                   ++ [[kv "d" "4"]; []])).
  { simpl. apply perm_swap. }
  split; [exact H |].
  apply (Add_assoc_comm_sequential _ _ _ _ H).
Defined.

(** C6. In every accumulator reachable from the empty one by [Update] and
    [Add], [checksum] is the XOR of the digests of all pairs folded in,
    directly or through a merge, and [bytes] and [kvs] are the sums of their
    byte lengths and their number, as [uint64] (the sums themselves while
    they fit); in whatever order the pairs are taken.  All three fields are
    [uint64] values. *)
Theorem reachable_invariant (c : KVChecksum) (h : list KvPair) :
  Reachable c h ->
  wf c
  /\ (checksum c = xor_digests h
      /\ bytes c = u64_wrap (total_size h)
      /\ kvs c = u64_wrap (pair_count h))
  /\ (total_size h < modulus -> bytes c = total_size h)
  /\ (pair_count h < modulus -> kvs c = pair_count h)
  /\ (forall h' : list KvPair,
         Permutation h h' ->
         checksum c = xor_digests h'
         /\ bytes c = u64_wrap (total_size h')
         /\ kvs c = u64_wrap (pair_count h')).
Proof.
  intros R. split; [exact (Reachable_wf c h R) |].
  apply Reachable_closed in R. subst c.
  rewrite Update_closed; simpl.
  assert (Hs : 0 <= total_size h).
  { induction h as [| p h IH]; simpl; [lia |]. unfold pair_size, len. lia. }
  repeat split.
  - intros Hlt. rewrite u64_add_0_l. apply u64_wrap_small. split; lia.
  - intros Hlt. rewrite u64_add_0_l. apply u64_wrap_small.
    unfold pair_count in *. split; lia.
  - now apply xor_digests_perm.
  - now rewrite (total_size_perm _ _ H).
  - now rewrite (pair_count_perm _ _ H).
Qed.

Lemma reachable_invariant_witness :
  Reachable (Add (Update empty [kv "a" "1"]) (Update empty [kv "b" "22"]))
            (([] ++ [kv "a" "1"]) ++ ([] ++ [kv "b" "22"]))
  /\ bytes (Add (Update empty [kv "a" "1"]) (Update empty [kv "b" "22"])) = 5.
Proof.
  assert (R : Reachable
                (Add (Update empty [kv "a" "1"]) (Update empty [kv "b" "22"]))
                (([] ++ [kv "a" "1"]) ++ ([] ++ [kv "b" "22"]))).
  { apply Reach_Add; apply Reach_Update; apply Reach_empty. }
  split; [exact R |].
  destruct (reachable_invariant _ _ R) as (_ & _ & Hb & _).
  apply Hb. reflexivity.
Defined.

(** C7. Folding the same pair into two empty accumulators and merging them
    gives the checksum of an accumulator the pair was never folded into (the
    digest cancels against itself), while [kvs] is [2] and [bytes] is twice
    [len(key) + len(value)] (as [uint64]; the number itself while it fits).
    The cancellation holds for any two receivers. *)
Theorem duplicate_cancellation (p : KvPair) :
  let m := Add (Update empty [p]) (Update empty [p]) in
  (checksum m = checksum empty
   /\ kvs m = 2
   /\ bytes m = u64_wrap (2 * pair_size p))
  /\ (2 * pair_size p < modulus -> bytes m = 2 * pair_size p)
  /\ (forall c1 c2 : KVChecksum,
         checksum (Add (Update c1 [p]) (Update c2 [p]))
         = checksum (Add c1 c2)).
Proof.
  cbv zeta. rewrite Add_closed, !Update_closed.
  assert (Hs : 0 <= pair_size p) by (unfold pair_size, len; lia).
  assert (Hb : u64_add (u64_add 0 (pair_size p + 0))
                 (u64_add 0 (pair_size p + 0))
               = u64_wrap (2 * pair_size p)).
  { rewrite u64_add_add_r, !u64_add_0_l, u64_add_wrap_l.
    unfold u64_add. f_equal. ring. }
  cbn [bytes kvs checksum empty NewKVChecksum total_size List.fold_right].
  repeat split.
  - apply Z.lxor_nilpotent.
  - exact Hb.
  - intros Hlt. rewrite Hb. apply u64_wrap_small. split; lia.
  - intros c1 c2. rewrite Add_closed, !Update_closed, Add_closed.
    cbn [checksum]. rewrite xor_digests_cons. cbn [xor_digests List.fold_right].
    rewrite Z.lxor_0_r.
    rewrite (Z.lxor_comm (checksum c2)), Z.lxor_assoc.
    rewrite <- (Z.lxor_assoc (digest p)), Z.lxor_nilpotent, Z.lxor_0_l.
    reflexivity.
Qed.

Lemma duplicate_cancellation_witness :
  2 * pair_size (kv "k1" "v1") < modulus
  /\ bytes (Add (Update empty [kv "k1" "v1"]) (Update empty [kv "k1" "v1"]))
     = 2 * pair_size (kv "k1" "v1").
Proof.
  assert (H : 2 * pair_size (kv "k1" "v1") < modulus) by reflexivity.
  split; [exact H |].
  destruct (duplicate_cancellation (kv "k1" "v1")) as (_ & Hb & _).
  exact (Hb H).
Defined.

(** ** Totality *)

Section Totality.

Lemma Update_body_checked_ok (st : UpdateLocals) (p : KvPair) :
  Update_body_checked (Some st) p = Some (Update_body st p).
Proof.
  unfold Update_body_checked, Update_body.
  now rewrite !(crc_Update_checked_ok _ ecmaTable_length).
Qed.

Lemma Update_loop_checked_ok (batch : list KvPair) (st : UpdateLocals) :
  List.fold_left Update_body_checked batch (Some st)
  = Some (List.fold_left Update_body batch st).
Proof.
  revert st. induction batch as [| p batch IH]; intros st;
    cbn [List.fold_left]; [reflexivity |].
  rewrite Update_body_checked_ok. apply IH.
Qed.

Lemma digest_non_nil (p : KvPair) : digest (non_nil_pair p) = digest p.
Proof. reflexivity. Qed.

Lemma pair_size_non_nil (p : KvPair) :
  pair_size (non_nil_pair p) = pair_size p.
Proof. reflexivity. Qed.

Lemma Update_non_nil (c : KVChecksum) (batch : list KvPair) :
  Update c (List.map non_nil_pair batch) = Update c batch.
Proof.
  rewrite !Update_closed. unfold pair_count. rewrite length_map.
  f_equal.
  - f_equal. induction batch as [| p batch IH]; simpl; [reflexivity |].
    now rewrite IH, pair_size_non_nil.
  - f_equal. induction batch as [| p batch IH]; [reflexivity |].
    cbn [List.map]. now rewrite !xor_digests_cons, IH, digest_non_nil.
Qed.

End Totality.

(** C9. [Update] never fails: with every array access of the digest loop
    checked, it returns, for every receiver and batch, the receiver that the
    unchecked model computes.  A nil key or value is handled as the empty
    byte sequence: its [len] is [0], digesting it leaves the running CRC as
    it is, and the call gives the same result as with the empty slice in its
    place. *)
Theorem Update_never_fails (c : KVChecksum) (batch : list KvPair) :
  Update_checked c batch = Some (Update c batch)
  /\ Update c batch = Update c (List.map non_nil_pair batch)
  /\ len NilBytes = 0
  /\ (forall crc : Z, crc64.Update_checked crc ecmaTable NilBytes = Some crc)
  /\ (forall k : GoBytes,
         Update c [{| Key := k; Val := NilBytes |}]
         = {| bytes := u64_add (bytes c) (len k);
              kvs := u64_add (kvs c) 1;
              checksum := u64_xor (checksum c)
                            (crc64.Update 0 ecmaTable k) |})
  /\ (forall v : GoBytes,
         Update c [{| Key := NilBytes; Val := v |}]
         = {| bytes := u64_add (bytes c) (len v);
              kvs := u64_add (kvs c) 1;
              checksum := u64_xor (checksum c)
                            (crc64.Update 0 ecmaTable v) |}).
Proof.
  split; [| split; [| split; [| split; [| split]]]].
  - unfold Update_checked, Update. now rewrite Update_loop_checked_ok.
  - symmetry. apply Update_non_nil.
  - reflexivity.
  - intros crc. rewrite (crc_Update_checked_ok _ ecmaTable_length).
    f_equal. now apply crc_Update_no_bytes.
  - intros k. rewrite Update_closed. unfold u64_xor.
    cbn [total_size xor_digests List.fold_right pair_size Key Val].
    change (pair_count [{| Key := k; Val := NilBytes |}]) with 1.
    rewrite <- pair_digest_rolling. cbn [Key Val].
    rewrite (crc_Update_no_bytes ecmaTable _ NilBytes eq_refl).
    unfold pair_size; cbn [Key Val].
    change (len NilBytes) with 0. now rewrite !Z.add_0_r, Z.lxor_0_r.
  - intros v. rewrite Update_closed. unfold u64_xor.
    cbn [total_size xor_digests List.fold_right pair_size Key Val].
    change (pair_count [{| Key := NilBytes; Val := v |}]) with 1.
    rewrite <- pair_digest_rolling. cbn [Key Val].
    rewrite (crc_Update_no_bytes ecmaTable 0 NilBytes eq_refl).
    unfold pair_size; cbn [Key Val].
    change (len NilBytes) with 0. now rewrite Z.add_0_l, Z.add_0_r, Z.lxor_0_r.
Qed.

(** ** What the CRC tells apart *)

Section CrcInjectivity.

Lemma nodupb_NoDup (l : list Z) : nodupb l = true -> NoDup l.
Proof.
  induction l as [| x l IH]; simpl; intros H.
  - constructor.
  - apply andb_true_iff in H. destruct H as [Hx Hl].
    constructor; [| now apply IH].
    intros Hin. apply negb_true_iff in Hx.
    assert (E : List.existsb (Z.eqb x) l = true).
    { apply existsb_exists. exists x. split; [exact Hin | apply Z.eqb_refl]. }
    congruence.
Qed.

(** The top bytes of the 256 table entries are pairwise different. *)
Lemma ecmaTable_top_bytes :
  NoDup (List.map (fun e => Z.shiftr e 56) ecmaTable).
Proof. apply nodupb_NoDup. vm_compute. reflexivity. Qed.

Lemma ecmaTable_top_byte_inj (i j : Z) :
  0 <= i < 256 -> 0 <= j < 256 ->
  Z.shiftr (crc64.index ecmaTable i) 56 = Z.shiftr (crc64.index ecmaTable j) 56 ->
  i = j.
Proof.
  intros Hi Hj E. unfold crc64.index in E.
  pose proof ecmaTable_top_bytes as N.
  rewrite (NoDup_nth _ (Z.shiftr 0 56)) in N.
  assert (L : List.length (List.map (fun e => Z.shiftr e 56) ecmaTable)
              = 256%nat) by (rewrite length_map; apply ecmaTable_length).
  specialize (N (Z.to_nat i) (Z.to_nat j)).
  rewrite L in N.
  rewrite !(map_nth (fun e => Z.shiftr e 56)) in N.
  assert (Z.to_nat i = Z.to_nat j) by (apply N; [lia | lia | exact E]).
  lia.
Qed.

Lemma lxor_cancel_l (a b c : Z) : Z.lxor a b = Z.lxor a c -> b = c.
Proof.
  intros E.
  rewrite <- (Z.lxor_0_l b), <- (Z.lxor_0_l c), <- (Z.lxor_nilpotent a).
  now rewrite !Z.lxor_assoc, E.
Qed.

Lemma lxor_cancel_r (a b c : Z) : Z.lxor b a = Z.lxor c a -> b = c.
Proof. rewrite !(Z.lxor_comm _ a). apply lxor_cancel_l. Qed.

(** The top byte of a step's result is the top byte of the table entry. *)
Lemma crc_step_top_byte (crc : Z) (v : byte) :
  is_uint64 crc ->
  Z.shiftr (crc64.step ecmaTable crc v) 56
  = Z.shiftr
      (crc64.index ecmaTable (Z.lxor (byte_of_uint64 crc) (byte_val v))) 56.
Proof.
  intros [Hlo Hhi]. unfold crc64.step, u64_xor, u64_shr.
  rewrite Z.shiftr_lxor, Z.shiftr_shiftr by lia.
  replace (Z.shiftr crc (8 + 56)) with 0; [apply Z.lxor_0_r |].
  rewrite Z.shiftr_div_pow2 by lia. symmetry. apply Z.div_small.
  unfold modulus in Hhi. simpl. lia.
Qed.

Lemma crc_step_index_eq (c1 c2 : Z) (a b : byte) :
  is_uint64 c1 -> is_uint64 c2 ->
  crc64.step ecmaTable c1 a = crc64.step ecmaTable c2 b ->
  Z.lxor (byte_of_uint64 c1) (byte_val a)
  = Z.lxor (byte_of_uint64 c2) (byte_val b).
Proof.
  intros H1 H2 E.
  apply ecmaTable_top_byte_inj; try apply crc_index_in_range.
  rewrite <- !crc_step_top_byte by assumption. now rewrite E.
Qed.

(** For a fixed byte, a step is injective in the running CRC. *)
Lemma crc_step_inj_state (c1 c2 : Z) (v : byte) :
  is_uint64 c1 -> is_uint64 c2 ->
  crc64.step ecmaTable c1 v = crc64.step ecmaTable c2 v -> c1 = c2.
Proof.
  intros H1 H2 E.
  pose proof (crc_step_index_eq c1 c2 v v H1 H2 E) as Ei.
  assert (Elow : c1 mod 256 = c2 mod 256).
  { apply lxor_cancel_r in Ei. exact Ei. }
  unfold crc64.step, u64_xor in E. rewrite Ei in E.
  apply lxor_cancel_l in E. unfold u64_shr in E.
  rewrite !Z.shiftr_div_pow2 in E by lia.
  change (2 ^ 8) with 256 in E.
  rewrite (Z.div_mod c1 256), (Z.div_mod c2 256) by lia.
  now rewrite E, Elow.
Qed.

Lemma byte_val_inj (a b : byte) : byte_val a = byte_val b -> a = b.
Proof.
  unfold byte_val. intros E. apply N2Z.inj in E.
  pose proof (Byte.of_to_N a) as Ha. pose proof (Byte.of_to_N b) as Hb.
  rewrite E in Ha. congruence.
Qed.

(** For a fixed running CRC, a step is injective in the byte. *)
Lemma crc_step_inj_byte (crc : Z) (a b : byte) :
  is_uint64 crc ->
  crc64.step ecmaTable crc a = crc64.step ecmaTable crc b -> a = b.
Proof.
  intros H E.
  pose proof (crc_step_index_eq crc crc a b H H E) as Ei.
  apply lxor_cancel_l in Ei. now apply byte_val_inj.
Qed.

Lemma crc_fold_range (l : list byte) (crc : Z) :
  is_uint64 crc -> is_uint64 (List.fold_left (crc64.step ecmaTable) l crc).
Proof.
  revert crc. induction l as [| v l IH]; intros crc H; cbn [List.fold_left].
  - exact H.
  - apply IH. now apply crc_step_range.
Qed.

Lemma crc_fold_inj_state (l : list byte) (c1 c2 : Z) :
  is_uint64 c1 -> is_uint64 c2 ->
  List.fold_left (crc64.step ecmaTable) l c1
  = List.fold_left (crc64.step ecmaTable) l c2 ->
  c1 = c2.
Proof.
  revert c1 c2. induction l as [| v l IH]; intros c1 c2 H1 H2 E;
    cbn [List.fold_left] in E.
  - exact E.
  - apply (crc_step_inj_state c1 c2 v H1 H2).
    apply IH; [now apply crc_step_range | now apply crc_step_range | exact E].
Qed.

Lemma u64_not_inj (a b : Z) : u64_not a = u64_not b -> a = b.
Proof. unfold u64_not. apply lxor_cancel_r. Qed.

Lemma crc_Update_inj_seed (s1 s2 : Z) (p : GoBytes) :
  is_uint64 s1 -> is_uint64 s2 ->
  crc64.Update s1 ecmaTable p = crc64.Update s2 ecmaTable p -> s1 = s2.
Proof.
  intros H1 H2 E. unfold crc64.Update in E.
  apply u64_not_inj, crc_fold_inj_state, u64_not_inj in E;
    [exact E | now apply u64_not_range | now apply u64_not_range].
Qed.

Lemma crc_Update_inj_byte (s : Z) (pre post : list byte) (a b : byte) :
  is_uint64 s ->
  crc64.Update s ecmaTable (Bytes (pre ++ a :: post))
  = crc64.Update s ecmaTable (Bytes (pre ++ b :: post)) ->
  a = b.
Proof.
  intros Hs E. unfold crc64.Update in E. cbn [elems] in E.
  apply u64_not_inj in E. rewrite !fold_left_app in E.
  cbn [List.fold_left] in E.
  assert (Hst : is_uint64
                  (List.fold_left (crc64.step ecmaTable) pre (u64_not s))).
  { apply crc_fold_range. now apply u64_not_range. }
  apply crc_fold_inj_state in E; try (now apply crc_step_range).
  now apply crc_step_inj_byte in E.
Qed.

Lemma is_uint64_0 : is_uint64 0.
Proof. unfold is_uint64, modulus. lia. Qed.

End CrcInjectivity.

(** ** Further properties of the accumulator *)

Lemma pair_size_concat (p : KvPair) :
  pair_size p = Z.of_nat (List.length (elems (Key p) ++ elems (Val p))).
Proof. unfold pair_size, len. rewrite length_app. lia. Qed.

Lemma checksum_Update_swap_one (c : KVChecksum) (b1 b2 : list KvPair)
  (p q : KvPair) :
  checksum (Update c (b1 ++ p :: b2)) = checksum (Update c (b1 ++ q :: b2)) ->
  digest p = digest q.
Proof.
  rewrite !Update_closed. cbn [checksum].
  rewrite !xor_digests_app, !xor_digests_cons. intros E.
  apply lxor_cancel_l, lxor_cancel_l in E.
  now apply lxor_cancel_r in E.
Qed.

(** X1. A batch in which one byte of one pair (of its key or of its value)
    is replaced by another byte never gives the same checksum: CRC-64 tells
    apart any two byte sequences that differ in a single position. *)
Theorem Update_detects_byte_substitution
  (c : KVChecksum) (b1 b2 : list KvPair) (p q : KvPair)
  (pre post : list byte) (a b : byte) :
  elems (Key p) ++ elems (Val p) = pre ++ a :: post ->
  elems (Key q) ++ elems (Val q) = pre ++ b :: post ->
  a <> b ->
  checksum (Update c (b1 ++ p :: b2)) <> checksum (Update c (b1 ++ q :: b2)).
Proof.
  intros Hp Hq Hab E. apply Hab.
  apply checksum_Update_swap_one in E. unfold digest in E.
  rewrite Hp, Hq in E.
  exact (crc_Update_inj_byte 0 pre post a b is_uint64_0 E).
Qed.

Lemma Update_detects_byte_substitution_witness :
  checksum (Update empty [kv "k0" "v0"; kv "k1" "v1"])
  <> checksum (Update empty [kv "k0" "v0"; kv "k1" "w1"]).
Proof.
  apply (Update_detects_byte_substitution empty [kv "k0" "v0"] []
           (kv "k1" "v1") (kv "k1" "w1")
           (list_byte_of_string "k1") (list_byte_of_string "1")
           "v"%byte "w"%byte);
    [reflexivity | reflexivity | discriminate].
Defined.

(** X2. [Update] does not see where a key ends and its value begins: two
    pairs whose key followed by value are the same bytes give the same
    accumulator, whatever else the batch holds. *)
Theorem Update_blind_to_key_value_boundary
  (c : KVChecksum) (b1 b2 : list KvPair) (p q : KvPair) :
  elems (Key p) ++ elems (Val p) = elems (Key q) ++ elems (Val q) ->
  Update c (b1 ++ p :: b2) = Update c (b1 ++ q :: b2).
Proof.
  intros E. rewrite !Update_closed.
  rewrite !total_size_app, !pair_count_app, !xor_digests_app.
  rewrite !xor_digests_cons, !pair_count_cons.
  cbn [total_size List.fold_right]. fold (total_size b2).
  rewrite !pair_size_concat. unfold digest. now rewrite E.
Qed.

Lemma Update_blind_to_key_value_boundary_witness :
  Update empty [kv "ab" "c"] = Update empty [kv "a" "bc"].
Proof.
  apply (Update_blind_to_key_value_boundary empty [] []
           (kv "ab" "c") (kv "a" "bc")).
  reflexivity.
Defined.

(** X3. Two pairs with the same value have the same digest exactly when
    their keys have the same CRC-64: continuing the rolling CRC over the
    value neither creates nor removes a collision. *)
Theorem digest_same_value_collision (k1 k2 v : GoBytes) :
  digest {| Key := k1; Val := v |} = digest {| Key := k2; Val := v |}
  <-> crc64.Update 0 ecmaTable k1 = crc64.Update 0 ecmaTable k2.
Proof.
  rewrite <- !pair_digest_rolling. cbn [Key Val]. split.
  - apply crc_Update_inj_seed; apply crc_Update_range, is_uint64_0.
  - intros E. now rewrite E.
Qed.

(** X4. [Update] and [Add] keep the three fields inside [uint64], for every
    batch and every merged accumulator. *)
Theorem Update_and_Add_keep_uint64
  (c other : KVChecksum) (batch : list KvPair) :
  wf c -> wf other -> wf (Update c batch) /\ wf (Add c other).
Proof.
  intros Hc Ho. split; [now apply Update_wf | now apply Add_wf].
Qed.

Lemma Update_and_Add_keep_uint64_witness :
  wf (Update (MakeKVChecksum (modulus - 1) (modulus - 1) 7) [kv "k1" "v1"]).
Proof.
  assert (H : wf (MakeKVChecksum (modulus - 1) (modulus - 1) 7)).
  { unfold wf, is_uint64, modulus; simpl; lia. }
  apply (Update_and_Add_keep_uint64 _ empty [kv "k1" "v1"] H wf_empty).
Defined.

(** X5. [Update] with an empty batch leaves the accumulator as it is. *)
Theorem Update_empty_batch (c : KVChecksum) : wf c -> Update c [] = c.
Proof. apply Update_nil_batch. Qed.

Lemma Update_empty_batch_witness :
  Update (MakeKVChecksum 10 2 77) [] = MakeKVChecksum 10 2 77.
Proof.
  apply (Update_empty_batch (MakeKVChecksum 10 2 77)).
  unfold wf, is_uint64, modulus; simpl; lia.
Defined.

(** X6. Folding in a batch and merging in an accumulator commute, and
    merging two accumulators that each received a batch is merging them
    first and then folding in both batches. *)
Theorem Update_Add_commute
  (c other : KVChecksum) (b1 b2 : list KvPair) :
  Add (Update c b1) other = Update (Add c other) b1
  /\ Add (Update c b1) (Update other b2) = Update (Add c other) (b1 ++ b2).
Proof.
  split.
  - rewrite !Add_closed, !Update_closed. cbn [bytes kvs checksum].
    rewrite !u64_add_add_l, (Z.add_comm (total_size b1)),
      (Z.add_comm (pair_count b1)).
    rewrite !Z.lxor_assoc, (Z.lxor_comm (xor_digests b1)).
    reflexivity.
  - rewrite !Add_closed, !Update_closed. cbn [bytes kvs checksum].
    rewrite total_size_app, pair_count_app, xor_digests_app.
    rewrite !u64_add_add_r, !u64_add_add_l.
    f_equal.
    + f_equal. ring.
    + f_equal. ring.
    + rewrite !Z.lxor_assoc. f_equal.
      rewrite <- !Z.lxor_assoc. f_equal. apply Z.lxor_comm.
Qed.

(** ** Package [common]: the log configuration *)

Section LogConfigFacts.

Import common.

Lemma str_len_pos (s : string) :
  (0 <? str_len s) = true <-> s <> EmptyString.
Proof.
  unfold str_len. destruct s as [| a s]; simpl.
  - split; [discriminate | congruence].
  - split; [discriminate | reflexivity].
Qed.

Lemma str_len_empty (s : string) :
  (0 <? str_len s) = false <-> s = EmptyString.
Proof.
  unfold str_len. destruct s as [| a s]; simpl.
  - split; reflexivity.
  - split; discriminate.
Qed.

Lemma Adjust_File (cfg : LogConfig) : File (Adjust cfg) = File cfg.
Proof.
  unfold Adjust. destruct (0 <? str_len (File cfg)); [| reflexivity].
  destruct (FileMaxSize cfg =? 0); cbn [FileMaxDays set_FileMaxSize];
    destruct (FileMaxDays cfg =? 0); reflexivity.
Qed.

Lemma Adjust_nonzero (cfg : LogConfig) :
  File cfg <> EmptyString ->
  FileMaxSize (Adjust cfg) <> 0 /\ FileMaxDays (Adjust cfg) <> 0.
Proof.
  intros H. apply str_len_pos in H. unfold Adjust. rewrite H.
  destruct (Z.eqb_spec (FileMaxSize cfg) 0) as [Es | Es];
    cbn [FileMaxDays set_FileMaxSize];
    destruct (Z.eqb_spec (FileMaxDays cfg) 0) as [Ed | Ed];
    cbn [FileMaxSize FileMaxDays set_FileMaxSize set_FileMaxDays];
    split; (assumption || discriminate).
Qed.

Lemma Adjust_no_file (cfg : LogConfig) :
  File cfg = EmptyString -> Adjust cfg = cfg.
Proof.
  intros Hf. apply str_len_empty in Hf. unfold Adjust. now rewrite Hf.
Qed.

End LogConfigFacts.

(** X7. [Adjust] never touches [Level], [File] and [FileMaxBackups]; with a
    log file named, it leaves [FileMaxSize] and [FileMaxDays] non-zero,
    keeping every non-zero value (a negative one too) as it is; with no log
    file named it changes nothing, zero limits included. *)
Theorem Adjust_fills_defaults (cfg : common.LogConfig) :
  (common.Level (common.Adjust cfg) = common.Level cfg
   /\ common.File (common.Adjust cfg) = common.File cfg
   /\ common.FileMaxBackups (common.Adjust cfg) = common.FileMaxBackups cfg)
  /\ (common.File cfg <> EmptyString ->
      common.FileMaxSize (common.Adjust cfg) <> 0
      /\ common.FileMaxDays (common.Adjust cfg) <> 0)
  /\ (common.FileMaxSize cfg <> 0 ->
      common.FileMaxSize (common.Adjust cfg) = common.FileMaxSize cfg)
  /\ (common.FileMaxDays cfg <> 0 ->
      common.FileMaxDays (common.Adjust cfg) = common.FileMaxDays cfg)
  /\ (common.File cfg = EmptyString -> common.Adjust cfg = cfg).
Proof.
  split; [| split; [apply Adjust_nonzero |]].
  - unfold common.Adjust.
    destruct (0 <? common.str_len (common.File cfg)); [| repeat split].
    destruct (common.FileMaxSize cfg =? 0);
      cbn [common.FileMaxDays common.set_FileMaxSize];
      destruct (common.FileMaxDays cfg =? 0); repeat split.
  - unfold common.Adjust. repeat split.
    + intros Hs. apply Z.eqb_neq in Hs. rewrite Hs.
      destruct (0 <? common.str_len (common.File cfg)); [| reflexivity].
      destruct (common.FileMaxDays cfg =? 0); reflexivity.
    + intros Hd. apply Z.eqb_neq in Hd.
      destruct (0 <? common.str_len (common.File cfg)); [| reflexivity].
      destruct (common.FileMaxSize cfg =? 0);
        cbn [common.FileMaxDays common.set_FileMaxSize];
        rewrite Hd; reflexivity.
    + apply Adjust_no_file.
Qed.

Lemma Adjust_fills_defaults_witness :
  common.File (common.mkLogConfig "info" "lightning.log" 0 (-1) 0)
  <> EmptyString
  /\ common.Adjust (common.mkLogConfig "info" "lightning.log" 0 (-1) 0)
     = common.mkLogConfig "info" "lightning.log" 512 (-1) 0
  /\ common.FileMaxSize
       (common.Adjust (common.mkLogConfig "info" "lightning.log" 0 (-1) 0))
     <> 0.
Proof.
  assert (H : common.File (common.mkLogConfig "info" "lightning.log" 0 (-1) 0)
              <> EmptyString) by discriminate.
  destruct (Adjust_fills_defaults
              (common.mkLogConfig "info" "lightning.log" 0 (-1) 0))
    as (_ & Hnz & _).
  split; [exact H |]. split; [reflexivity | exact (proj1 (Hnz H))].
Defined.

(** X8. [Adjust] is idempotent: a second call changes nothing. *)
Theorem Adjust_idempotent (cfg : common.LogConfig) :
  common.Adjust (common.Adjust cfg) = common.Adjust cfg.
Proof.
  destruct (String.eqb_spec (common.File cfg) EmptyString) as [He | Hne].
  - now rewrite !(Adjust_no_file cfg He).
  - destruct (Adjust_nonzero cfg Hne) as [Hs Hd].
    unfold common.Adjust at 1. rewrite Adjust_File.
    apply str_len_pos in Hne. rewrite Hne.
    apply Z.eqb_neq in Hs. apply Z.eqb_neq in Hd. now rewrite Hs, Hd.
Qed.

(** ** Package [common]: log levels *)

Section LogLevelFacts.

Variable mapLower : string -> string.

Lemma lowerASCII_no_upper (s : string) :
  strings.hasUpper s = false -> strings.lowerASCII s = s.
Proof.
  induction s as [| c s IH]; simpl; intros H; [reflexivity |].
  apply orb_false_iff in H. destruct H as [Hc Hs].
  unfold strings.lower_byte. now rewrite Hc, IH.
Qed.

Lemma ToLower_ascii (s : string) :
  strings.isASCII s = true ->
  strings.ToLower mapLower s = strings.lowerASCII s.
Proof.
  intros H. unfold strings.ToLower. rewrite H.
  destruct (strings.hasUpper s) eqn:E; [reflexivity |].
  symmetry. now apply lowerASCII_no_upper.
Qed.

End LogLevelFacts.

(** X9. [stringToLogLevel] returns one of the five levels fatal, error,
    warn, info and debug, whatever the string: the panic level cannot be
    configured. *)
Theorem stringToLogLevel_range (mapLower : string -> string) (level : string) :
  List.In (common.stringToLogLevel mapLower level)
    [logrus.FatalLevel; logrus.ErrorLevel; logrus.WarnLevel;
     logrus.InfoLevel; logrus.DebugLevel]
  /\ common.stringToLogLevel mapLower level <> logrus.PanicLevel.
Proof.
  unfold common.stringToLogLevel.
  destruct (String.eqb _ "fatal"); [split; [simpl; tauto | discriminate] |].
  destruct (String.eqb _ "error"); [split; [simpl; tauto | discriminate] |].
  destruct (String.eqb _ "warn" || String.eqb _ "warning");
    [split; [simpl; tauto | discriminate] |].
  destruct (String.eqb _ "debug"); [split; [simpl; tauto | discriminate] |].
  destruct (String.eqb _ "info"); split; (simpl; tauto) || discriminate.
Qed.

(** X10. Which name gives which level: the lowered string must be exactly
    ["fatal"], ["error"], ["warn"] or ["warning"], or ["debug"] for the
    level of that name, and every other string, the empty one and a name
    with blanks around it included, gives the info level. *)
Theorem stringToLogLevel_names (mapLower : string -> string) (level : string) :
  let l := strings.ToLower mapLower level in
  let r := common.stringToLogLevel mapLower level in
  (r = logrus.FatalLevel <-> l = "fatal"%string)
  /\ (r = logrus.ErrorLevel <-> l = "error"%string)
  /\ (r = logrus.WarnLevel <-> l = "warn"%string \/ l = "warning"%string)
  /\ (r = logrus.DebugLevel <-> l = "debug"%string)
  /\ (r = logrus.InfoLevel <->
      ~ List.In l ["fatal"; "error"; "warn"; "warning"; "debug"]%string).
Proof.
  cbv zeta. unfold common.stringToLogLevel, common.defaultLogLevel.
  generalize (strings.ToLower mapLower level). intros l.
  destruct (String.eqb_spec l "fatal") as [-> | Hf].
  { repeat split; intros H; try discriminate H; try reflexivity;
      try (destruct H; discriminate); try (exfalso; apply H; simpl; tauto). }
  destruct (String.eqb_spec l "error") as [-> | He].
  { repeat split; intros H; try discriminate H; try reflexivity;
      try (destruct H; discriminate); try (exfalso; apply H; simpl; tauto). }
  destruct (String.eqb_spec l "warn") as [-> | Hw].
  { cbn [orb]. repeat split; intros H; try discriminate H; try reflexivity;
      try (left; reflexivity); try (exfalso; apply H; simpl; tauto). }
  destruct (String.eqb_spec l "warning") as [-> | Hw'].
  { cbn [orb]. repeat split; intros H; try discriminate H; try reflexivity;
      try (right; reflexivity); try (exfalso; apply H; simpl; tauto). }
  cbn [orb].
  destruct (String.eqb_spec l "debug") as [-> | Hd].
  { repeat split; intros H; try discriminate H; try reflexivity;
      try (destruct H; discriminate); try (exfalso; apply H; simpl; tauto). }
  assert (Hno : ~ List.In l ["fatal"; "error"; "warn"; "warning"; "debug"]%string).
  { simpl. intros [H | [H | [H | [H | [H | []]]]]]; congruence. }
  destruct (String.eqb_spec l "info") as [-> | Hi];
    repeat split; intros H; try discriminate H; try reflexivity;
    try congruence; try (destruct H; congruence); try exact Hno.
Qed.

(** X11. On ASCII strings the level does not depend on letter case: two
    ASCII strings that are equal once lowered give the same level. *)
Theorem stringToLogLevel_ignores_case
  (mapLower : string -> string) (s t : string) :
  strings.isASCII s = true ->
  strings.isASCII t = true ->
  strings.lowerASCII s = strings.lowerASCII t ->
  common.stringToLogLevel mapLower s = common.stringToLogLevel mapLower t.
Proof.
  intros Hs Ht E. unfold common.stringToLogLevel.
  now rewrite !ToLower_ascii, E by assumption.
Qed.

Lemma stringToLogLevel_ignores_case_witness :
  common.stringToLogLevel (fun s => s) "WARNING"
  = common.stringToLogLevel (fun s => s) "Warning"
  /\ common.stringToLogLevel (fun s => s) "WARNING" = logrus.WarnLevel.
Proof.
  split; [| reflexivity].
  apply (stringToLogLevel_ignores_case (fun s => s) "WARNING" "Warning");
    reflexivity.
Defined.

(** ** Package [common]: the hook that finds the caller *)

Section CallerFacts.

Local Open Scope string_scope.

Lemma prefix_spec (a b : string) :
  String.prefix a b = true <-> exists post, b = a ++ post.
Proof.
  revert b. induction a as [| x a IH]; intros b.
  - destruct b; simpl; split; intros; eauto.
  - destruct b as [| y b]; simpl.
    + split; [discriminate | intros [post H]; discriminate H].
    + destruct (ascii_dec x y) as [-> | Hne].
      * rewrite IH. split; intros [post H]; exists post;
          [now rewrite H | now injection H].
      * split; [discriminate |].
        intros [post H]. injection H as H1 H2. congruence.
Qed.

Lemma Contains_spec (s sub : string) :
  strings.Contains s sub = true
  <-> exists pre post, s = pre ++ sub ++ post.
Proof.
  induction s as [| c s IH]; cbn [strings.Contains];
    rewrite orb_true_iff, prefix_spec.
  - split.
    + intros [[post H] | H]; [| discriminate]. now exists "", post.
    + intros [pre [post H]]. left. exists post.
      destruct pre; [exact H | discriminate H].
  - rewrite IH. split.
    + intros [[post H] | [pre [post H]]].
      * now exists "", post.
      * exists (String c pre), post. simpl. now rewrite H.
    + intros [pre [post H]]. destruct pre as [| c' pre].
      * left. now exists post.
      * right. simpl in H. injection H as _ H. now exists pre, post.
Qed.


Lemma Fire_loop_first (Base : string -> string)
  (pre post : list common.Frame) (fu : common.Frame) (d : common.Fields) :
  List.forallb (fun fu => common.isSkippedPackageName (common.fn_name fu)) pre
  = true ->
  common.isSkippedPackageName (common.fn_name fu) = false ->
  common.Fire_loop Base (pre ++ fu :: post) d
  = common.fields_set
      (common.fields_set d "file"
         (common.VString (Base (common.fn_file fu))))
      "line" (common.VInt (common.fn_line fu)).
Proof.
  intros Hpre Hfu.
  induction pre as [| g pre IH]; cbn [List.app common.Fire_loop].
  - now rewrite Hfu.
  - cbn [List.forallb] in Hpre. apply andb_true_iff in Hpre.
    destruct Hpre as [Hg Hrest]. rewrite Hg. cbn [negb]. now apply IH.
Qed.

End CallerFacts.

(** X12. A function name is skipped exactly when it contains the import path
    of logrus or of capnslog somewhere: the packages themselves, vendored
    copies of them, and any package whose path merely continues one of the
    two. *)
Theorem isSkippedPackageName_spec (name : string) :
  common.isSkippedPackageName name = true
  <-> exists pre post : string,
      name = (pre ++ "github.com/sirupsen/logrus" ++ post)%string
      \/ name = (pre ++ "github.com/coreos/pkg/capnslog" ++ post)%string.
Proof.
  unfold common.isSkippedPackageName.
  rewrite orb_true_iff, !Contains_spec. split.
  - intros [[pre [post H]] | [pre [post H]]]; exists pre, post; tauto.
  - intros [pre [post [H | H]]]; [left | right]; now exists pre, post.
Qed.



(** X14. When one of the three nearest callers is not in a skipped package,
    [Fire] records the first such caller: ["file"] becomes the base name of
    its file, ["line"] its line, and every other key of the entry keeps its
    value. *)
Theorem Fire_records_first_caller
  (Base : string -> string) (callers pre post : list common.Frame)
  (fu : common.Frame) (d : common.Fields) :
  List.firstn 3 callers = pre ++ fu :: post ->
  List.forallb (fun g => common.isSkippedPackageName (common.fn_name g)) pre
  = true ->
  common.isSkippedPackageName (common.fn_name fu) = false ->
  let d' := fst (common.Fire Base callers d) in
  d' "file"%string = Some (common.VString (Base (common.fn_file fu)))
  /\ d' "line"%string = Some (common.VInt (common.fn_line fu))
  /\ (forall k : string,
         k <> "file"%string -> k <> "line"%string -> d' k = d k).
Proof.
  intros E Hpre Hfu. cbv zeta. unfold common.Fire. cbn [fst].
  rewrite E, (Fire_loop_first Base pre post fu d Hpre Hfu).
  unfold common.fields_set. repeat split.
  intros k Hf Hl.
  apply String.eqb_neq in Hf. apply String.eqb_neq in Hl.
  now rewrite Hl, Hf.
Qed.

Lemma Fire_records_first_caller_witness :
  fst (common.Fire (fun s => s)
         [common.mkFrame "github.com/sirupsen/logrus.(*Entry).Info" "entry.go" 2;
          common.mkFrame "main.run" "main.go" 40;
          common.mkFrame "main.main" "main.go" 7]
         (fun _ => None)) "line"%string
  = Some (common.VInt 40).
Proof.
  destruct (Fire_records_first_caller (fun s => s)
              [common.mkFrame "github.com/sirupsen/logrus.(*Entry).Info" "entry.go" 2;
               common.mkFrame "main.run" "main.go" 40;
               common.mkFrame "main.main" "main.go" 7]
              [common.mkFrame "github.com/sirupsen/logrus.(*Entry).Info" "entry.go" 2]
              [common.mkFrame "main.main" "main.go" 7]
              (common.mkFrame "main.run" "main.go" 40)
              (fun _ => None) eq_refl eq_refl eq_refl) as (_ & Hl & _).
  exact Hl.
Defined.

(** ** Package [common]: [InitLogger] *)

(** X15. [InitLogger] fails exactly when a log file is named and that name
    is an existing directory.  Failing or not, it has by then set the level
    from the configuration, appended one more [contextHook], installed the
    [SimpleTextFormater] and passed the TiDB level on; on failure, and when
    no file is named, the output of the logger is left as it was. *)
Theorem InitLogger_error_and_effects
  (mapLower : string -> string) (IsDirExists : string -> bool)
  (cfg : common.LogConfig) (tidbLoglevel : string) (w : common.World) :
  let r := common.InitLogger mapLower IsDirExists cfg tidbLoglevel w in
  (snd r <> None
   <-> common.File cfg <> EmptyString /\ IsDirExists (common.File cfg) = true)
  /\ common.GetLevel (fst r)
     = common.stringToLogLevel mapLower (common.Level cfg)
  /\ common.Hooks (common.AppLogger (fst r))
     = common.Hooks (common.AppLogger w) ++ [common.contextHook]
  /\ common.LoggerFormatter (common.AppLogger (fst r))
     = common.SimpleTextFormater
  /\ common.tidbLevel (fst r) = Some tidbLoglevel
  /\ (snd r <> None \/ common.File cfg = EmptyString ->
      common.Out (common.AppLogger (fst r)) = common.Out (common.AppLogger w)).
Proof.
  cbv zeta. unfold common.InitLogger.
  destruct (0 <? common.str_len (common.File cfg)) eqn:Hlen.
  - apply str_len_pos in Hlen.
    destruct (IsDirExists (common.File cfg)) eqn:Hdir; cbn.
    + repeat split; try discriminate; try assumption.
    + repeat split; try discriminate; try tauto.
      intros [_ H]. discriminate H.
  - apply str_len_empty in Hlen. cbn.
    repeat split; try tauto.
Qed.

Lemma InitLogger_error_and_effects_witness :
  snd (common.InitLogger (fun s => s) (fun f => String.eqb f "/var/log")
         (common.mkLogConfig "debug" "/var/log" 0 0 0) "info"
         (common.mkWorld
            (common.mkLogger common.Stderr [] common.TextFormatter
               logrus.InfoLevel) None))
  <> None
  /\ common.GetLevel
       (fst (common.InitLogger (fun s => s) (fun f => String.eqb f "/var/log")
               (common.mkLogConfig "debug" "/var/log" 0 0 0) "info"
               (common.mkWorld
                  (common.mkLogger common.Stderr [] common.TextFormatter
                     logrus.InfoLevel) None)))
     = logrus.DebugLevel.
Proof.
  destruct (InitLogger_error_and_effects (fun s => s)
              (fun f => String.eqb f "/var/log")
              (common.mkLogConfig "debug" "/var/log" 0 0 0) "info"
              (common.mkWorld
                 (common.mkLogger common.Stderr [] common.TextFormatter
                    logrus.InfoLevel) None)) as (Herr & Hlvl & _).
  split.
  - apply Herr. split; [discriminate | reflexivity].
  - exact Hlvl.
Defined.

(** X16. [Adjust] followed by [InitLogger]: when the named log file is not
    a directory the call succeeds and the logger writes to a rotating file
    of that name, in local time, whose size and age limits are never zero
    and whose number of backups is the configured one. *)
Theorem Adjust_then_InitLogger
  (mapLower : string -> string) (IsDirExists : string -> bool)
  (cfg : common.LogConfig) (tidbLoglevel : string) (w : common.World) :
  common.File cfg <> EmptyString ->
  IsDirExists (common.File cfg) = false ->
  exists l : common.lumberjack_Logger,
    common.InitLogger mapLower IsDirExists (common.Adjust cfg) tidbLoglevel w
    = (common.with_logger
         {| common.AppLogger := common.AppLogger w;
            common.tidbLevel := Some tidbLoglevel |}
         {| common.Out := common.Lumberjack l;
            common.Hooks := common.Hooks (common.AppLogger w)
                            ++ [common.contextHook];
            common.LoggerFormatter := common.SimpleTextFormater;
            common.LoggerLevel :=
              common.stringToLogLevel mapLower (common.Level cfg) |},
       None)
    /\ common.Filename l = common.File cfg
    /\ common.MaxSize l <> 0
    /\ common.MaxAge l <> 0
    /\ common.MaxBackups l = common.FileMaxBackups cfg
    /\ common.LocalTime l = true.
Proof.
  intros Hf Hdir.
  destruct (Adjust_nonzero cfg Hf) as [Hs Hd].
  pose proof (Adjust_File cfg) as HF.
  assert (HL : common.Level (common.Adjust cfg) = common.Level cfg
               /\ common.FileMaxBackups (common.Adjust cfg)
                  = common.FileMaxBackups cfg).
  { unfold common.Adjust.
    destruct (0 <? common.str_len (common.File cfg)); [| split; reflexivity].
    destruct (common.FileMaxSize cfg =? 0);
      cbn [common.FileMaxDays common.set_FileMaxSize];
      destruct (common.FileMaxDays cfg =? 0); split; reflexivity. }
  destruct HL as [HL HB].
  exists {| common.Filename := common.File cfg;
            common.MaxSize := common.FileMaxSize (common.Adjust cfg);
            common.MaxAge := common.FileMaxDays (common.Adjust cfg);
            common.MaxBackups := common.FileMaxBackups cfg;
            common.LocalTime := true |}.
  split; [| now repeat split].
  unfold common.InitLogger. rewrite HF, HL, HB, Hdir.
  apply str_len_pos in Hf. rewrite Hf. reflexivity.
Qed.

Lemma Adjust_then_InitLogger_witness :
  exists l : common.lumberjack_Logger,
    common.Out
      (common.AppLogger
         (fst (common.InitLogger (fun s => s) (fun _ => false)
                 (common.Adjust (common.mkLogConfig "warn" "lightning.log" 0 0 3))
                 "info"
                 (common.mkWorld
                    (common.mkLogger common.Stderr [] common.TextFormatter
                       logrus.InfoLevel) None))))
    = common.Lumberjack l
    /\ common.MaxSize l <> 0.
Proof.
  destruct (Adjust_then_InitLogger (fun s => s) (fun _ => false)
              (common.mkLogConfig "warn" "lightning.log" 0 0 3) "info"
              (common.mkWorld
                 (common.mkLogger common.Stderr [] common.TextFormatter
                    logrus.InfoLevel) None))
    as (l & E & _ & Hs & _).
  - discriminate.
  - reflexivity.
  - exists l. split; [now rewrite E | exact Hs].
Defined.
